(** * APEX_CORE compatibility headers: [bypass_fix.h] and [sovereign_shim.h]

    The repository is two C headers.  [bypass_fix.h] replaces ten libc
    names by function-like macros; [sovereign_shim.h] defines two of the
    same names as [static inline] functions.

    The development has two layers.

    - A run-time layer: C expressions are computations over a process state
      (the thread's [errno], the state of the operating system, and a log of
      the call-site functions that were run).  A function-like macro receives
      its arguments as unevaluated expressions, a C function receives values.
    - A translation-time layer: a header is the list of its lines, and the
      preprocessor is a function that runs the lines over the macro table of
      a translation unit. *)

From stdpp Require Import base gmap strings list.
From Stdlib Require Import ZArith Lia.

Local Open Scope Z_scope.

(** ** C values *)

(** A pointer is null or an address. [NULL] is what [getpwent] yields. *)
Inductive ptr : Type :=
  | NULL
  | Addr (a : Z).

(** [int] is 32 bits wide. *)
Definition INT_MIN : Z := - 2 ^ 31.
Definition INT_MAX : Z := 2 ^ 31 - 1.

Definition in_int_range (z : Z) : Prop := INT_MIN <= z <= INT_MAX.

(** Conversion of a [long] to [int], as the [return] of an [int] function
    does when its operand is a [long]: the value is kept when it fits and
    wraps modulo 2^32 otherwise. *)
Definition int_of_long (r : Z) : Z := (r + 2 ^ 31) mod 2 ^ 32 - 2 ^ 31.

(** ** The platform

    What the headers take from their environment: the value of [ENOSYS]
    from [<errno.h>], the libc function [sem_timedwait], the variadic
    [syscall] entry to the kernel, what [<sys/syscall.h>] says about
    [SYS_close_range], and the order in which the compiler evaluates the
    arguments of a call (C leaves it unspecified).

    An external function sees the thread's [errno] and the operating
    system state: it returns its result, the new [errno] and the new
    state. *)

Inductive order2 : Type := L2R2 | R2L2.

Inductive order3 : Type := O012 | O021 | O102 | O120 | O201 | O210.

Class Platform : Type := {
  OS : Type;
  ENOSYS : Z;
  libc_sem_timedwait : ptr -> ptr -> Z -> OS -> Z * Z * OS;
  libc_syscall : Z -> list Z -> Z -> OS -> Z * Z * OS;
  platform_SYS_close_range : option Z;
  arg_order2 : order2;
  arg_order3 : order3
}.

(** ** Process state and computations *)

Section Semantics.
Context `{Platform}.

(** [calls] logs, most recent first, the call-site functions that have
    run (the [f()], [g()], [tick()] of an argument expression). *)
Record state : Type := mkState {
  errno : Z;
  os : OS;
  calls : list string
}.

Definition M (A : Type) : Type := state -> A * state.

Definition ret {A} (a : A) : M A := fun s => (a, s).

Definition bind {A B} (m : M A) (k : A -> M B) : M B :=
  fun s => let (a, s') := m s in k a s'.

Definition run {A} (m : M A) (s : state) : A * state := m s.

(** [errno = v]: an assignment expression, whose value is [v]. *)
Definition assign_errno (v : Z) : M Z :=
  fun s => (v, mkState v (os s) (calls s)).

(** [(l, r)]: the comma operator evaluates [l], drops its value, and
    yields [r]. *)
Definition comma {A B} (l : M A) (r : M B) : M B := bind l (fun _ => r).

(** [(void) e] *)
Definition cast_void {A} (e : M A) : M unit := bind e (fun _ => ret tt).

(** A call of an external function. *)
Definition extern {A} (f : Z -> OS -> A * Z * OS) : M A :=
  fun s => let '(r, e, o) := f (errno s) (os s) in (r, mkState e o (calls s)).

(** A call-site function [name()] with a side effect: it logs its name
    and returns [v]. *)
Definition user_call {A} (name : string) (v : A) : M A :=
  fun s => (v, mkState (errno s) (os s) (name :: calls s)).

(** Function calls evaluate each argument expression, in the compiler's
    order, and then enter the function with the values. *)
Definition call2 {A B R} (f : A -> B -> M R) (a : M A) (b : M B) : M R :=
  match arg_order2 with
  | L2R2 => bind a (fun x => bind b (fun y => f x y))
  | R2L2 => bind b (fun y => bind a (fun x => f x y))
  end.

Definition call3 {A B C R} (f : A -> B -> C -> M R)
    (a : M A) (b : M B) (c : M C) : M R :=
  match arg_order3 with
  | O012 => bind a (fun x => bind b (fun y => bind c (fun z => f x y z)))
  | O021 => bind a (fun x => bind c (fun z => bind b (fun y => f x y z)))
  | O102 => bind b (fun y => bind a (fun x => bind c (fun z => f x y z)))
  | O120 => bind b (fun y => bind c (fun z => bind a (fun x => f x y z)))
  | O201 => bind c (fun z => bind a (fun x => bind b (fun y => f x y z)))
  | O210 => bind c (fun z => bind b (fun y => bind a (fun x => f x y z)))
  end.

(** The libc functions the headers call, as C functions on values. *)
Definition sem_timedwait (sem abs_timeout : ptr) : M Z :=
  extern (libc_sem_timedwait sem abs_timeout).

Definition syscall (number : Z) (args : list Z) : M Z :=
  extern (libc_syscall number args).

End Semantics.

(** ** [bypass_fix.h]: the macros

    A function-like macro is a function of the argument expressions.  The
    replacement list decides which of them are evaluated. *)

Module BypassFix.
Section Macros.
Context `{Platform}.

(* #define close_range(a, b, c) (errno = ENOSYS, -1) *)
Definition close_range {A B C} (a : M A) (b : M B) (c : M C) : M Z :=
  comma (assign_errno ENOSYS) (ret (- 1)).

(* #define copy_file_range(a,b,c,d,e,f) (errno = ENOSYS, -1) *)
Definition copy_file_range {A B C D E F}
    (a : M A) (b : M B) (c : M C) (d : M D) (e : M E) (f : M F) : M Z :=
  comma (assign_errno ENOSYS) (ret (- 1)).

(* #define preadv2(a,b,c,d,e) (errno = ENOSYS, -1) *)
Definition preadv2 {A B C D E}
    (a : M A) (b : M B) (c : M C) (d : M D) (e : M E) : M Z :=
  comma (assign_errno ENOSYS) (ret (- 1)).

(* #define pwritev2(a,b,c,d,e) (errno = ENOSYS, -1) *)
Definition pwritev2 {A B C D E}
    (a : M A) (b : M B) (c : M C) (d : M D) (e : M E) : M Z :=
  comma (assign_errno ENOSYS) (ret (- 1)).

(* #define setpwent() ((void)0) *)
Definition setpwent : M unit := cast_void (ret 0).

(* #define endpwent() ((void)0) *)
Definition endpwent : M unit := cast_void (ret 0).

(* #define getpwent() (NULL) *)
Definition getpwent : M ptr := ret NULL.

(* #define getloadavg(a,b) (errno = ENOSYS, -1) *)
Definition getloadavg {A B} (a : M A) (b : M B) : M Z :=
  comma (assign_errno ENOSYS) (ret (- 1)).

(* #define fexecve(a, b, c) (errno = ENOSYS, -1) *)
Definition fexecve {A B C} (a : M A) (b : M B) (c : M C) : M Z :=
  comma (assign_errno ENOSYS) (ret (- 1)).

(* #define sem_clockwait(sem, clock, timeout) sem_timedwait(sem, timeout) *)
Definition sem_clockwait {C} (sem : M ptr) (clock : M C) (timeout : M ptr)
    : M Z :=
  call2 sem_timedwait sem timeout.

End Macros.
End BypassFix.

(** ** [sovereign_shim.h]: the inline functions *)

Module SovereignShim.
Section Functions.
Context `{Platform}.

(* static inline int sem_clockwait(sem_t *sem, clockid_t clockid,
                                   const struct timespec *abs_timeout) {
       return sem_timedwait(sem, abs_timeout);
   } *)
Definition sem_clockwait (sem : ptr) (clockid : Z) (abs_timeout : ptr)
    : M Z :=
  sem_timedwait sem abs_timeout.

(* #ifndef SYS_close_range
   #define SYS_close_range 436
   #endif *)
Definition SYS_close_range : Z :=
  match platform_SYS_close_range with
  | Some n => n
  | None => 436
  end.

(* static inline int close_range(unsigned int first, unsigned int last,
                                 unsigned int flags) {
       return syscall(SYS_close_range, first, last, flags);
   } *)
Definition close_range (first last flags : Z) : M Z :=
  bind (syscall SYS_close_range [first; last; flags])
       (fun r => ret (int_of_long r)).

End Functions.
End SovereignShim.

(** ** Translation time: the preprocessor

    A header is the list of its lines.  Replacement lists and function
    bodies are kept as preprocessing tokens. *)

Inductive token : Type :=
  | TId (x : string)
  | TInt (n : Z)
  | TPunct (p : string).

Inductive macro : Type :=
  | ObjectLike (body : list token)
  | FunctionLike (params : list string) (body : list token).

Inductive line : Type :=
  | Ifndef (name : string)                  (* #ifndef name *)
  | Endif                                   (* #endif *)
  | Define (name : string) (m : macro)      (* #define name ... *)
  | IncludeSys (h : string)                 (* #include <h> *)
  | Function (name : string) (params : list string) (body : list token).
                                            (* a function definition *)

#[global] Instance token_eq_dec : EqDecision token.
Proof. solve_decision. Defined.

#[global] Instance macro_eq_dec : EqDecision macro.
Proof. solve_decision. Defined.

(** A definition that a compatibility header has put into the translation
    unit, as it stands in the header's text: a macro with its replacement
    list, or a function with its body after macro replacement. *)
Inductive definition : Type :=
  | DMacro (name : string) (m : macro)
  | DFunction (name : string) (body : list token).

#[global] Instance definition_eq_dec : EqDecision definition.
Proof. solve_decision. Defined.

Definition definition_name (d : definition) : string :=
  match d with
  | DMacro n _ => n
  | DFunction n _ => n
  end.

Definition is_function (n : string) (d : definition) : bool :=
  match d with
  | DFunction n' _ => bool_decide (n' = n)
  | DMacro _ _ => false
  end.

Definition is_macro (n : string) (d : definition) : bool :=
  match d with
  | DMacro n' _ => bool_decide (n' = n)
  | DFunction _ _ => false
  end.

(** The macros each system header defines: an input of the model. *)
Class SystemHeaders : Type := {
  sys_macros : string -> list (string * macro)
}.

(** The state of a translation unit while it is preprocessed: the macro
    table, the definitions made by the compatibility headers (most recent
    first), and the names whose definition clashed with an earlier one. *)
Record tu : Type := mkTu {
  macros : gmap string macro;
  defs : list definition;
  conflicts : list string
}.

Definition tu_init : tu := mkTu ∅ [] [].

Definition defined (n : string) (st : tu) : bool :=
  bool_decide (is_Some (macros st !! n)).

(** How many definitions of the name [n] the translation unit holds. *)
Definition times_defined (n : string) (st : tu) : nat :=
  length (filter (λ d, definition_name d = n) (defs st)).

(** The occurrences of the identifier [x] in a token list. *)
Definition uses (x : string) (body : list token) : nat :=
  length (filter (λ t, t = TId x) body).

(** Replacement of the object-like macros of a token list (one pass). *)
Definition expand_object (t : gmap string macro) (body : list token)
    : list token :=
  flat_map (λ tok,
    match tok with
    | TId x =>
        match t !! x with
        | Some (ObjectLike b) => b
        | _ => [tok]
        end
    | _ => [tok]
    end) body.

Section Preprocessor.
Context `{SystemHeaders}.

(** [#define n m]: a second definition of [n] is accepted when it is the
    same as the first and clashes otherwise; the last one is in force. *)
Definition define (n : string) (m : macro) (st : tu) : tu :=
  mkTu (<[n := m]> (macros st))
       (DMacro n m :: defs st)
       (match macros st !! n with
        | Some m' => if decide (m' = m) then conflicts st
                     else n :: conflicts st
        | None => conflicts st
        end).

(** A function definition named [n]: it clashes with an earlier
    function of that name, and with a function-like macro of that name,
    which rewrites its declarator. *)
Definition define_function (n : string) (body : list token) (st : tu)
    : tu :=
  mkTu (macros st)
       (DFunction n (expand_object (macros st) body) :: defs st)
       (if existsb (is_function n) (defs st) then n :: conflicts st
        else match macros st !! n with
             | Some (FunctionLike _ _) => n :: conflicts st
             | _ => conflicts st
             end).

(** [#include <h>]: the system header's macros enter the table. *)
Definition sys_include (h : string) (st : tu) : tu :=
  mkTu (foldr (λ nm t, <[nm.1 := nm.2]> t) (macros st) (sys_macros h))
       (defs st)
       (conflicts st).

(** The conditional stack holds, for each open [#ifndef], whether its
    group is being processed; a group nested in a skipped group is
    skipped. *)
Definition active (stack : list bool) : bool :=
  match stack with
  | [] => true
  | b :: _ => b
  end.

Definition step (l : line) (c : tu * list bool) : tu * list bool :=
  let (st, stack) := c in
  match l with
  | Ifndef n => (st, (active stack && negb (defined n st)) :: stack)
  | Endif => (st, tail stack)
  | Define n m =>
      if active stack then (define n m st, stack) else (st, stack)
  | IncludeSys h =>
      if active stack then (sys_include h st, stack) else (st, stack)
  | Function n _ body =>
      if active stack then (define_function n body st, stack)
      else (st, stack)
  end.

Definition preprocess (ls : list line) (c : tu * list bool)
    : tu * list bool :=
  fold_left (λ c l, step l c) ls c.

(** [(errno = ENOSYS, -1)] *)
Definition fail_ENOSYS : list token :=
  [TPunct "("; TId "errno"; TPunct "="; TId "ENOSYS"; TPunct ",";
   TPunct "-"; TInt 1; TPunct ")"].

Definition bypass_fix_h : list line :=
  [ (*  1 *) Ifndef "REECH_BYPASS_H";
    (*  2 *) Define "REECH_BYPASS_H" (ObjectLike []);
    (*  3 *) IncludeSys "errno.h";
    (*  4 *) IncludeSys "sys/types.h";
    (*  5 *) IncludeSys "pwd.h";
    (*  8 *) Define "close_range" (FunctionLike ["a"; "b"; "c"] fail_ENOSYS);
    (*  9 *) Define "copy_file_range"
               (FunctionLike ["a"; "b"; "c"; "d"; "e"; "f"] fail_ENOSYS);
    (* 10 *) Define "preadv2"
               (FunctionLike ["a"; "b"; "c"; "d"; "e"] fail_ENOSYS);
    (* 11 *) Define "pwritev2"
               (FunctionLike ["a"; "b"; "c"; "d"; "e"] fail_ENOSYS);
    (* 14 *) Define "setpwent"
               (FunctionLike []
                  [TPunct "("; TPunct "("; TId "void"; TPunct ")"; TInt 0;
                   TPunct ")"]);
    (* 15 *) Define "endpwent"
               (FunctionLike []
                  [TPunct "("; TPunct "("; TId "void"; TPunct ")"; TInt 0;
                   TPunct ")"]);
    (* 16 *) Define "getpwent"
               (FunctionLike [] [TPunct "("; TId "NULL"; TPunct ")"]);
    (* 19 *) Define "getloadavg" (FunctionLike ["a"; "b"] fail_ENOSYS);
    (* 20 *) Define "fexecve" (FunctionLike ["a"; "b"; "c"] fail_ENOSYS);
    (* 21 *) Define "sem_clockwait"
               (FunctionLike ["sem"; "clock"; "timeout"]
                  [TId "sem_timedwait"; TPunct "("; TId "sem"; TPunct ",";
                   TId "timeout"; TPunct ")"]);
    (* 23 *) Endif;
    (* 24 *) Ifndef "FFI_BYPASS";
    (* 25 *) Define "FFI_BYPASS" (ObjectLike []);
    (* 27 *) IncludeSys "sys/mman.h";
    (* 28 *) Endif ].

(** [return sem_timedwait(sem, abs_timeout);] *)
Definition sem_clockwait_body : list token :=
  [TId "return"; TId "sem_timedwait"; TPunct "("; TId "sem"; TPunct ",";
   TId "abs_timeout"; TPunct ")"; TPunct ";"].

(** [return syscall(SYS_close_range, first, last, flags);] *)
Definition close_range_body : list token :=
  [TId "return"; TId "syscall"; TPunct "("; TId "SYS_close_range";
   TPunct ","; TId "first"; TPunct ","; TId "last"; TPunct ",";
   TId "flags"; TPunct ")"; TPunct ";"].

Definition sovereign_shim_h : list line :=
  [ (*  1 *) Ifndef "SOVEREIGN_SHIM_H";
    (*  2 *) Define "SOVEREIGN_SHIM_H" (ObjectLike []);
    (*  3 *) IncludeSys "time.h";
    (*  4 *) IncludeSys "semaphore.h";
    (*  5 *) IncludeSys "errno.h";
    (*  6 *) IncludeSys "unistd.h";
    (*  7 *) IncludeSys "sys/syscall.h";
    (*  9 *) Function "sem_clockwait" ["sem"; "clockid"; "abs_timeout"]
               sem_clockwait_body;
    (* 13 *) Ifndef "SYS_close_range";
    (* 14 *) Define "SYS_close_range" (ObjectLike [TInt 436]);
    (* 15 *) Endif;
    (* 16 *) Function "close_range" ["first"; "last"; "flags"]
               close_range_body;
    (* 19 *) Endif ].

Inductive header : Type := BypassFix_h | SovereignShim_h.

Definition header_lines (h : header) : list line :=
  match h with
  | BypassFix_h => bypass_fix_h
  | SovereignShim_h => sovereign_shim_h
  end.

(** The include guards of a header. *)
Definition guards (h : header) : list string :=
  match h with
  | BypassFix_h => ["REECH_BYPASS_H"; "FFI_BYPASS"]
  | SovereignShim_h => ["SOVEREIGN_SHIM_H"]
  end.

(** [#include "h"] at the top level of a translation unit. *)
Definition include (h : header) (st : tu) : tu :=
  (preprocess (header_lines h) (st, [])).1.

(** A translation unit that includes the headers [hs], in this order,
    each outside of any conditional. *)
Definition translation_unit (hs : list header) (st : tu) : tu :=
  fold_left (λ st h, include h st) hs st.

(** The names a header's text defines, whatever the conditionals. *)
Definition text_defs (ls : list line) : list definition :=
  flat_map (λ l,
    match l with
    | Define n m => [DMacro n m]
    | Function n _ body => [DFunction n body]
    | _ => []
    end) ls.

Definition defined_names (ls : list line) : list string :=
  map definition_name (text_defs ls).

(** The two names that both headers define. *)
Definition shared_names : list string := ["close_range"; "sem_clockwait"].

(** Whether each [#define] and each function of [ls] stands inside an
    [#ifndef] group of one of the names [gs]; [stack] holds the names
    of the groups open on entry. *)
Fixpoint all_guarded (gs stack : list string) (ls : list line) : bool :=
  match ls with
  | [] => true
  | Ifndef n :: ls' => all_guarded gs (n :: stack) ls'
  | Endif :: ls' => all_guarded gs (tail stack) ls'
  | IncludeSys _ :: ls' => all_guarded gs stack ls'
  | _ :: ls' =>
      existsb (λ n, bool_decide (n ∈ gs)) stack && all_guarded gs stack ls'
  end.

(** Whether the text [ls] leaves the macro name [n] alone: no [#define]
    of [ls] has this name, and no system header that [ls] includes
    defines it. *)
Definition foreign_to (n : string) (ls : list line) : bool :=
  forallb (λ l,
    match l with
    | Define k _ => negb (bool_decide (k = n))
    | IncludeSys h => negb (bool_decide (n ∈ (sys_macros h).*1))
    | _ => true
    end) ls.

(** The macro that the text [ls] gives the name [n], if it defines it. *)
Definition text_macro (n : string) (ls : list line) : option macro :=
  head (flat_map (λ l,
    match l with
    | Define k m => if bool_decide (k = n) then [m] else []
    | _ => []
    end) ls).

(** The ten libc names that [bypass_fix.h] replaces. *)
Definition stub_names : list string :=
  ["close_range"; "copy_file_range"; "preadv2"; "pwritev2"; "setpwent";
   "endpwent"; "getpwent"; "getloadavg"; "fexecve"; "sem_clockwait"].

(** Whether no system header that [ls] includes defines the macro [n]. *)
Definition sys_silent (n : string) (ls : list line) : bool :=
  forallb (λ l,
    match l with
    | IncludeSys h => negb (bool_decide (n ∈ (sys_macros h).*1))
    | _ => true
    end) ls.

(** The body of [bypass_fix.h] has been processed and its macro for [n]
    is the one in the table. *)
Definition stub_in_force (n : string) (st : tu) : Prop :=
  defined "REECH_BYPASS_H" st = true /\
  macros st !! n = text_macro n bypass_fix_h.

End Preprocessor.

(** ** Call sites

    Small client programs of the headers, used to state what a caller
    observes. *)

Inductive pw_call : Type := Setpwent | Endpwent | Getpwent.

Section Clients.
Context `{Platform}.

(** One call of a password-database macro.  The two [void] macros yield
    no value, [getpwent()] yields a pointer. *)
Definition pw_step (c : pw_call) : M (option ptr) :=
  match c with
  | Setpwent => bind BypassFix.setpwent (fun _ => ret None)
  | Endpwent => bind BypassFix.endpwent (fun _ => ret None)
  | Getpwent => bind BypassFix.getpwent (fun p => ret (Some p))
  end.

(** A sequence of such calls, with the values they yield. *)
Fixpoint pw_session (cs : list pw_call) : M (list (option ptr)) :=
  match cs with
  | [] => ret []
  | c :: cs' =>
      bind (pw_step c) (fun r =>
      bind (pw_session cs') (fun rs => ret (r :: rs)))
  end.

Definition pw_expected (c : pw_call) : option ptr :=
  match c with
  | Getpwent => Some NULL
  | _ => None
  end.

(** What an always-fail macro leaves behind: [-1], [errno] set to
    [ENOSYS], and the rest of the state as it was. *)
Definition failed_ENOSYS (s : state) : Z * state :=
  (- 1, mkState ENOSYS (os s) (calls s)).

(** Two expressions one after the other, with both values. *)
Definition twice {A B} (m1 : M A) (m2 : M B) : M (A * B) :=
  bind m1 (fun r1 => bind m2 (fun r2 => ret (r1, r2))).

End Clients.

(** A small concrete platform, on which the statements below are run: the
    operating system is a set of open descriptors and one semaphore
    counter; system call 436 closes a descriptor range and rejects
    [first > last] with [EINVAL] (22); every other system call fails with
    [ENOSYS] (38); [sem_timedwait] takes the semaphore or times out with
    [ETIMEDOUT] (110). *)
Record demo_os : Type := mkDemo {
  open_fds : list Z;
  sem_count : Z
}.

Definition demo_syscall (number : Z) (args : list Z) (e : Z) (o : demo_os)
    : Z * Z * demo_os :=
  match args with
  | [first; last; flags] =>
      if bool_decide (number = 436) then
        if bool_decide (last < first) then (- 1, 22, o)
        else (0, e, mkDemo (filter (λ fd, ¬ (first <= fd <= last)) (open_fds o))
                           (sem_count o))
      else (- 1, 38, o)
  | _ => (- 1, 38, o)
  end.

Definition demo_sem_timedwait (sem abs_timeout : ptr) (e : Z) (o : demo_os)
    : Z * Z * demo_os :=
  if bool_decide (0 < sem_count o)
  then (0, e, mkDemo (open_fds o) (sem_count o - 1))
  else (- 1, 110, o).

Definition demo_platform (sys : option Z) (o2 : order2) (o3 : order3)
    : Platform :=
  {| OS := demo_os;
     ENOSYS := 38;
     libc_sem_timedwait := demo_sem_timedwait;
     libc_syscall := demo_syscall;
     platform_SYS_close_range := sys;
     arg_order2 := o2;
     arg_order3 := o3 |}.

(** System headers in which [<sys/syscall.h>] defines [SYS_close_range]
    when [sys] is given, and nothing else is defined. *)
Definition demo_headers (sys : option Z) : SystemHeaders :=
  {| sys_macros h :=
       match sys with
       | Some n => if bool_decide (h = "sys/syscall.h")
                   then [("SYS_close_range", ObjectLike [TInt n])] else []
       | None => []
       end |}.

(** * Properties *)

(** ** Run time *)

Section RunTime.
Context `{Platform}.

Lemma int_of_long_id (r : Z) : in_int_range r -> int_of_long r = r.
Proof.
  unfold in_int_range, INT_MIN, INT_MAX, int_of_long. intros Hr.
  rewrite Z.mod_small by lia. lia.
Qed.

Lemma int_of_long_range (r : Z) : in_int_range (int_of_long r).
Proof.
  unfold in_int_range, INT_MIN, INT_MAX, int_of_long.
  pose proof (Z.mod_pos_bound (r + 2 ^ 31) (2 ^ 32)). lia.
Qed.

Lemma run_bind {A B} (m : M A) (k : A -> M B) (s : state) :
  run (bind m k) s = run (k (run m s).1) (run m s).2.
Proof. unfold run, bind. by destruct (m s). Qed.

Lemma run_ret {A} (a : A) (s : state) : run (ret a) s = (a, s).
Proof. reflexivity. Qed.

Lemma run_user_call {A} (n : string) (v : A) (s : state) :
  run (user_call n v) s = (v, mkState (errno s) (os s) (n :: calls s)).
Proof. reflexivity. Qed.

Lemma extern_calls {A} (f : Z -> OS -> A * Z * OS) (s : state) :
  calls (run (extern f) s).2 = calls s.
Proof.
  unfold run, extern. by destruct (f (errno s) (os s)) as [[r e] o].
Qed.

End RunTime.

Section StubClaims.
Context `{Platform}.

(** Claim C1.  Whatever the argument expressions are, each of the six
    always-fail macros of [bypass_fix.h] ([close_range],
    [copy_file_range], [preadv2], [pwritev2], [getloadavg], [fexecve])
    yields [-1] and leaves [errno] equal to [ENOSYS]; the argument
    expressions play no part in the result, whatever their types,
    values or effects. *)
Theorem always_fail_returns_minus_one_ENOSYS
    {A B C D E F A' B' C' D' E' F'}
    (a : M A) (b : M B) (c : M C) (d : M D) (e : M E) (f : M F)
    (a' : M A') (b' : M B') (c' : M C') (d' : M D') (e' : M E')
    (f' : M F') (s : state) :
  let stubs : list (M Z * M Z) :=
    [ (BypassFix.close_range a b c, BypassFix.close_range a' b' c');
      (BypassFix.copy_file_range a b c d e f,
       BypassFix.copy_file_range a' b' c' d' e' f');
      (BypassFix.preadv2 a b c d e, BypassFix.preadv2 a' b' c' d' e');
      (BypassFix.pwritev2 a b c d e, BypassFix.pwritev2 a' b' c' d' e');
      (BypassFix.getloadavg a b, BypassFix.getloadavg a' b');
      (BypassFix.fexecve a b c, BypassFix.fexecve a' b' c') ] in
  Forall (fun m : M Z * M Z =>
            (run m.1 s).1 = - 1 /\
            errno (run m.1 s).2 = ENOSYS /\
            run m.1 s = run m.2 s) stubs.
Proof.
  cbv zeta. repeat constructor.
Qed.

(** Claim C4.  [setpwent()] and [endpwent()] yield no value and
    [getpwent()] yields [NULL], each leaving the whole state, [errno]
    included, as it was; hence any sequence of the three calls, of any
    length and in any order, leaves the state unchanged, and every
    [getpwent()] in it yields [NULL]. *)
Theorem password_db_macros_stateless (cs : list pw_call) (s : state) :
  run BypassFix.setpwent s = (tt, s) /\
  run BypassFix.endpwent s = (tt, s) /\
  run BypassFix.getpwent s = (NULL, s) /\
  run (pw_session cs) s = (map pw_expected cs, s).
Proof.
  repeat split.
  revert s. induction cs as [|c cs IH]; intros s; [reflexivity|].
  cbn [pw_session map]. rewrite run_bind.
  assert (Hc : run (pw_step c) s = (pw_expected c, s)) by by destruct c.
  rewrite Hc. cbn [fst snd]. rewrite run_bind, IH. reflexivity.
Qed.

(** Claim C6.  Each always-fail macro never succeeds (its value is
    [-1], whatever the arguments and the state), changes nothing of the
    state but [errno] (the operating system and the call log are as
    before), and is deterministic: a second call, with any other
    arguments, yields the same value and the same state as the
    first. *)
Theorem always_fail_deterministic_frame
    {A B C D E F A' B' C' D' E' F'}
    (a : M A) (b : M B) (c : M C) (d : M D) (e : M E) (f : M F)
    (a' : M A') (b' : M B') (c' : M C') (d' : M D') (e' : M E')
    (f' : M F') (s : state) :
  let stubs : list (M Z * M Z) :=
    [ (BypassFix.close_range a b c, BypassFix.close_range a' b' c');
      (BypassFix.copy_file_range a b c d e f,
       BypassFix.copy_file_range a' b' c' d' e' f');
      (BypassFix.preadv2 a b c d e, BypassFix.preadv2 a' b' c' d' e');
      (BypassFix.pwritev2 a b c d e, BypassFix.pwritev2 a' b' c' d' e');
      (BypassFix.getloadavg a b, BypassFix.getloadavg a' b');
      (BypassFix.fexecve a b c, BypassFix.fexecve a' b' c') ] in
  Forall (fun m : M Z * M Z =>
            (run m.1 s).1 <> 0 /\
            os (run m.1 s).2 = os s /\
            calls (run m.1 s).2 = calls s /\
            run (twice m.1 m.2) s = ((- 1, - 1), (run m.1 s).2) /\
            forall s', (run m.2 s').1 = (run m.1 s).1 /\
                       errno (run m.2 s').2 = errno (run m.1 s).2) stubs.
Proof.
  cbv zeta. repeat constructor; discriminate.
Qed.

End StubClaims.

Section DelegationClaims.
Context `{Platform}.

Lemma call2_values {A B R} (f : A -> B -> M R) (x : A) (y : B) (s : state) :
  run (call2 f (ret x) (ret y)) s = run (f x y) s.
Proof. unfold call2. by destruct arg_order2. Qed.

Lemma call3_values {A B C R} (f : A -> B -> C -> M R)
    (x : A) (y : B) (z : C) (s : state) :
  run (call3 f (ret x) (ret y) (ret z)) s = run (f x y z) s.
Proof. unfold call3. by destruct arg_order3. Qed.

(** Claim C2.  For every semaphore [sem], timeout [t] and clock
    identifier [clock_id], [sem_clockwait(sem, clock_id, t)] gives the
    value and the state (so the [errno]) that [sem_timedwait(sem, t)]
    gives: for the macro of [bypass_fix.h], for the function of
    [sovereign_shim.h], and for a call of that function.  Two clock
    identifiers therefore give the same outcome. *)
Theorem sem_clockwait_is_sem_timedwait
    (sem t : ptr) (clock_id clock_id' : Z) (s : state) :
  run (BypassFix.sem_clockwait (ret sem) (ret clock_id) (ret t)) s
    = run (sem_timedwait sem t) s /\
  run (SovereignShim.sem_clockwait sem clock_id t) s
    = run (sem_timedwait sem t) s /\
  run (call3 SovereignShim.sem_clockwait (ret sem) (ret clock_id) (ret t)) s
    = run (sem_timedwait sem t) s /\
  run (BypassFix.sem_clockwait (ret sem) (ret clock_id) (ret t)) s
    = run (BypassFix.sem_clockwait (ret sem) (ret clock_id') (ret t)) s /\
  run (SovereignShim.sem_clockwait sem clock_id t) s
    = run (SovereignShim.sem_clockwait sem clock_id' t) s.
Proof.
  unfold BypassFix.sem_clockwait.
  rewrite call3_values, !call2_values. by repeat split.
Qed.

(** Claim C3.  For all [first], [last] and [flags] (also [first > last]
    and a range with no open descriptor), when the kernel's result for
    [syscall(SYS_close_range, first, last, flags)] is an [int] (as 0 and
    -1 are), [close_range(first, last, flags)] of [sovereign_shim.h]
    returns that very result and leaves the state, [errno] included, as
    the system call left it. *)
Theorem close_range_returns_syscall_result
    (first last flags : Z) (s : state)
    (Hr : in_int_range
            (run (syscall SovereignShim.SYS_close_range
                    [first; last; flags]) s).1) :
  run (SovereignShim.close_range first last flags) s
    = run (syscall SovereignShim.SYS_close_range [first; last; flags]) s.
Proof.
  unfold SovereignShim.close_range. rewrite run_bind, run_ret.
  rewrite int_of_long_id by exact Hr.
  by destruct (run _ s).
Qed.

(** Claim C7.  For every [sem], [clock_id] and [abs_timeout], the macro
    [sem_clockwait] of [bypass_fix.h] and a call of the function
    [sem_clockwait] of [sovereign_shim.h] give the same value and the
    same [errno] (indeed the same state). *)
Theorem sem_clockwait_macro_equals_function
    (sem abs_timeout : ptr) (clock_id : Z) (s : state) :
  let macro_result :=
    run (BypassFix.sem_clockwait (ret sem) (ret clock_id)
           (ret abs_timeout)) s in
  let function_result :=
    run (call3 SovereignShim.sem_clockwait (ret sem) (ret clock_id)
           (ret abs_timeout)) s in
  macro_result.1 = function_result.1 /\
  errno macro_result.2 = errno function_result.2 /\
  macro_result = function_result.
Proof.
  cbv zeta. unfold BypassFix.sem_clockwait.
  rewrite call3_values, call2_values. by repeat split.
Qed.

End DelegationClaims.

(** C3 on the concrete platform: [close_range(10, 3, 0)] is rejected by
    the kernel with -1, and the function returns just that. *)
Lemma close_range_returns_syscall_result_witness :
  let P := demo_platform None L2R2 O012 in
  let s := @mkState P 0 (mkDemo [3; 5] 1) [] in
  in_int_range
    (run (@syscall P (@SovereignShim.SYS_close_range P) [10; 3; 0]) s).1 /\
  run (@SovereignShim.close_range P 10 3 0) s
    = run (@syscall P (@SovereignShim.SYS_close_range P) [10; 3; 0]) s.
Proof.
  cbv zeta.
  assert (Hr : in_int_range
            (run (@syscall (demo_platform None L2R2 O012)
                    (@SovereignShim.SYS_close_range
                       (demo_platform None L2R2 O012)) [10; 3; 0])
               (@mkState (demo_platform None L2R2 O012) 0
                  (mkDemo [3; 5] 1) [])).1).
  { vm_compute. split; discriminate. }
  split; [exact Hr|].
  exact (@close_range_returns_syscall_result
           (demo_platform None L2R2 O012) 10 3 0 _ Hr).
Defined.

(** ** Translation time *)

Ltac pp_run :=
  cbn [preprocess fold_left step active tail andb negb fst snd].

Ltac pp_cases g :=
  match goal with
  | |- context [negb (defined g ?S)] => destruct (defined g S) eqn:?; pp_run
  end.

Ltac decide_names :=
  repeat match goal with
  | |- context [bool_decide (?a = ?b)] =>
      let v := eval vm_compute in (bool_decide (a = b)) in
      change (bool_decide (a = b)) with v
  end.

Ltac pp_defs :=
  cbn [defs define sys_include define_function];
  cbn [existsb is_macro is_function]; decide_names; cbn [orb].

Section Translation.
Context `{SystemHeaders}.

(** *** Definedness only grows *)

Lemma defined_define_same n m st : defined n (define n m st) = true.
Proof.
  unfold defined, define. cbn [macros]. apply bool_decide_eq_true.
  rewrite lookup_insert_eq. eauto.
Qed.

Lemma defined_define n k m st :
  defined n st = true -> defined n (define k m st) = true.
Proof.
  unfold defined, define. cbn [macros]. rewrite !bool_decide_eq_true.
  destruct (decide (k = n)) as [->|Hne].
  - rewrite lookup_insert_eq. eauto.
  - by rewrite lookup_insert_ne.
Qed.

Lemma defined_define_function n k b st :
  defined n st = true -> defined n (define_function k b st) = true.
Proof. done. Qed.

Lemma defined_sys_include h n st :
  defined n st = true -> defined n (sys_include h st) = true.
Proof.
  unfold defined, sys_include. cbn [macros].
  rewrite !bool_decide_eq_true.
  induction (sys_macros h) as [|[k m] l IH]; cbn [foldr]; [done|].
  intros Hn. destruct (decide (k = n)) as [->|Hne].
  - rewrite lookup_insert_eq. eauto.
  - rewrite lookup_insert_ne by done. auto.
Qed.

Lemma step_defined l n st stk :
  defined n st = true -> defined n (step l (st, stk)).1 = true.
Proof.
  intros Hn. destruct l; cbn [step fst]; try done;
    destruct (active stk); cbn [fst]; try done.
  - by apply defined_define.
  - by apply defined_sys_include.
Qed.

Lemma preprocess_defined ls n c :
  defined n c.1 = true -> defined n (preprocess ls c).1 = true.
Proof.
  revert c. induction ls as [|l ls IH]; intros [st stk] Hn; [done|].
  cbn [preprocess fold_left]. apply IH.
  by apply step_defined.
Qed.

Lemma include_defined h n st :
  defined n st = true -> defined n (include h st) = true.
Proof. intros Hn. unfold include. by apply preprocess_defined. Qed.

Ltac pp_defined :=
  repeat first
    [ match goal with
      | H : defined ?n ?S = true |- defined ?n ?S = true => exact H
      end
    | match goal with
      | |- defined ?n (define ?n _ _) = true => apply defined_define_same
      | |- defined _ (define _ _ _) = true => apply defined_define
      | |- defined _ (sys_include _ _) = true => apply defined_sys_include
      | |- defined _ (define_function _ _ _) = true =>
          apply defined_define_function
      end ].

(** *** Include guards *)

Lemma include_guarded h st :
  Forall (fun g => defined g st = true) (guards h) -> include h st = st.
Proof.
  destruct h; cbn [guards]; intros Hg.
  - apply Forall_cons in Hg as [H1 Hg]. apply Forall_cons in Hg as [H2 _].
    unfold include, header_lines, bypass_fix_h. pp_run.
    rewrite H1. pp_run. rewrite H2. pp_run. reflexivity.
  - apply Forall_cons in Hg as [H1 _].
    unfold include, header_lines, sovereign_shim_h. pp_run.
    rewrite H1. pp_run. reflexivity.
Qed.

Lemma include_defines_guards h st :
  Forall (fun g => defined g (include h st) = true) (guards h).
Proof.
  destruct h; cbn [guards]; repeat (constructor; [|]); try constructor;
    unfold include, header_lines, bypass_fix_h, sovereign_shim_h; pp_run.
  - pp_cases "REECH_BYPASS_H"; pp_cases "FFI_BYPASS"; pp_defined.
  - pp_cases "REECH_BYPASS_H"; pp_cases "FFI_BYPASS"; pp_defined.
  - pp_cases "SOVEREIGN_SHIM_H"; [done|].
    pp_cases "SYS_close_range"; pp_defined.
Qed.

Lemma include_idempotent h st : include h (include h st) = include h st.
Proof. apply include_guarded, include_defines_guards. Qed.

Lemma undefined_sys_include h n st :
  n ∉ (sys_macros h).*1 ->
  defined n st = false -> defined n (sys_include h st) = false.
Proof.
  unfold defined, sys_include. cbn [macros].
  rewrite !bool_decide_eq_false.
  induction (sys_macros h) as [|[k m] l IH]; cbn [foldr fmap list_fmap fst snd];
    [done|].
  intros Hn Hst. apply not_elem_of_cons in Hn as [Hk Hn].
  rewrite lookup_insert_ne by done. by apply IH.
Qed.

Lemma undefined_define n k m st :
  k <> n -> defined n st = false -> defined n (define k m st) = false.
Proof.
  unfold defined, define. cbn [macros]. intros Hk.
  by rewrite lookup_insert_ne.
Qed.

Lemma preprocess_undefined ls n c :
  foreign_to n ls = true ->
  defined n c.1 = false -> defined n (preprocess ls c).1 = false.
Proof.
  revert c. induction ls as [|l ls IH]; intros [st stk]; [done|].
  cbn [foreign_to forallb]. intros [Hl Hls]%andb_true_iff Hst.
  cbn [preprocess fold_left]. apply IH; [exact Hls|].
  destruct l; cbn [step fst] in *; try done;
    destruct (active stk); cbn [fst]; try done.
  - apply undefined_define; [|done].
    apply negb_true_iff, bool_decide_eq_false in Hl. done.
  - apply undefined_sys_include; [|done].
    by apply negb_true_iff, bool_decide_eq_false in Hl.
Qed.

(** *** Counting definitions *)

Lemma times_defined_cons n d ds ms cs :
  times_defined n (mkTu ms (d :: ds) cs)
  = ((if bool_decide (definition_name d = n) then 1 else 0)
     + times_defined n (mkTu ms ds cs))%nat.
Proof.
  unfold times_defined. cbn [defs]. rewrite filter_cons.
  case_bool_decide; by rewrite decide_bool_decide; case_bool_decide.
Qed.

Lemma step_defs l st stk :
  exists new, defs (step l (st, stk)).1 = new ++ defs st.
Proof.
  destruct l; cbn [step fst]; try (by exists []);
    destruct (active stk); cbn [fst]; try (by exists []).
  - by exists [DMacro name m].
  - by exists [DFunction name (expand_object (macros st) body)].
Qed.

Lemma preprocess_defs ls c :
  exists new, defs (preprocess ls c).1 = new ++ defs c.1.
Proof.
  revert c. induction ls as [|l ls IH]; intros [st stk]; [by exists []|].
  cbn [preprocess fold_left].
  destruct (IH (step l (st, stk))) as [new1 H1].
  destruct (step_defs l st stk) as [new2 H2].
  exists (new1 ++ new2). unfold preprocess in H1.
  destruct (step l (st, stk)) as [st' stk']. cbn [fst] in *.
  by rewrite H1, H2, app_assoc.
Qed.

Lemma existsb_defs_include (p : definition -> bool) h st :
  existsb p (defs st) = true -> existsb p (defs (include h st)) = true.
Proof.
  unfold include. destruct (preprocess_defs (header_lines h) (st, [])) as [new ->].
  cbn [fst]. rewrite existsb_app. intros ->. apply orb_true_r.
Qed.

Lemma times_defined_include n h st :
  (times_defined n st <= times_defined n (include h st))%nat.
Proof.
  unfold include, times_defined.
  destruct (preprocess_defs (header_lines h) (st, [])) as [new ->].
  cbn [fst]. rewrite filter_app, length_app. lia.
Qed.

Lemma existsb_defs_translation_unit (p : definition -> bool) hs st :
  existsb p (defs st) = true ->
  existsb p (defs (translation_unit hs st)) = true.
Proof.
  revert st. induction hs as [|h hs IH]; intros st Hp; [done|].
  cbn [translation_unit fold_left]. apply IH.
  by apply existsb_defs_include.
Qed.

Lemma count_by_kind n ds :
  length (filter (λ d, definition_name d = n) ds)
  = (length (filter (λ d, is_macro n d) ds)
     + length (filter (λ d, is_function n d) ds))%nat.
Proof.
  induction ds as [|d ds IH]; [done|].
  rewrite !filter_cons.
  destruct d as [k m|k b]; cbn [is_macro is_function definition_name];
    destruct (decide (k = n)) as [Hk|Hk];
    rewrite ?(bool_decide_eq_true_2 _ Hk), ?(bool_decide_eq_false_2 _ Hk);
    repeat case_decide; unfold Is_true in *; try tauto; cbn [length]; lia.
Qed.

Lemma existsb_count (p : definition -> bool) ds :
  existsb p ds = true -> (1 <= length (filter (λ d, p d) ds))%nat.
Proof.
  induction ds as [|d ds IH]; [done|].
  cbn [existsb]. rewrite filter_cons.
  destruct (p d); cbn [orb]; repeat case_decide; unfold Is_true in *; try tauto;
    cbn [length]; auto with lia.
Qed.

Lemma twice_defined n ds :
  existsb (is_macro n) ds = true -> existsb (is_function n) ds = true ->
  (2 <= length (filter (λ d, definition_name d = n) ds))%nat.
Proof.
  intros Hm%existsb_count Hf%existsb_count. rewrite count_by_kind. lia.
Qed.

Lemma include_bypass_macro n st :
  n ∈ shared_names ->
  defined "REECH_BYPASS_H" st = false ->
  existsb (is_macro n) (defs (include BypassFix_h st)) = true.
Proof.
  intros Hn Hg. unfold include, header_lines, bypass_fix_h. pp_run.
  rewrite Hg. pp_run.
  unfold shared_names in Hn. rewrite !elem_of_cons, elem_of_nil in Hn.
  destruct Hn as [->|[->|[]]]; pp_cases "FFI_BYPASS"; by pp_defs.
Qed.

Lemma include_shim_function n st :
  n ∈ shared_names ->
  defined "SOVEREIGN_SHIM_H" st = false ->
  existsb (is_function n) (defs (include SovereignShim_h st)) = true.
Proof.
  intros Hn Hg. unfold include, header_lines, sovereign_shim_h. pp_run.
  rewrite Hg. pp_run.
  unfold shared_names in Hn. rewrite !elem_of_cons, elem_of_nil in Hn.
  destruct Hn as [->|[->|[]]]; pp_cases "SYS_close_range"; by pp_defs.
Qed.

Lemma include_once n h st :
  n ∈ shared_names ->
  defs st = [] ->
  (times_defined n (include h st) <= 1)%nat.
Proof.
  intros Hn Hfresh.
  unfold shared_names in Hn. rewrite !elem_of_cons, elem_of_nil in Hn.
  unfold times_defined.
  destruct h; unfold include, header_lines, bypass_fix_h, sovereign_shim_h;
    pp_run.
  - pp_cases "REECH_BYPASS_H"; pp_cases "FFI_BYPASS";
      cbn [defs define sys_include define_function]; rewrite Hfresh;
      destruct Hn as [->|[->|[]]]; vm_compute; lia.
  - pp_cases "SOVEREIGN_SHIM_H"; [rewrite Hfresh; cbn; lia|].
    pp_cases "SYS_close_range";
      cbn [defs define sys_include define_function]; rewrite Hfresh;
      destruct Hn as [->|[->|[]]];
      rewrite !filter_cons; cbn [definition_name]; 
      repeat case_decide; try done; cbn [length filter]; try lia.
Qed.

Lemma both_included_twice_defined n hs st :
  n ∈ shared_names ->
  foreign_to "REECH_BYPASS_H" sovereign_shim_h = true ->
  foreign_to "SOVEREIGN_SHIM_H" bypass_fix_h = true ->
  (BypassFix_h ∈ hs -> defined "REECH_BYPASS_H" st = false ->
   existsb (is_macro n) (defs (translation_unit hs st)) = true) /\
  (SovereignShim_h ∈ hs -> defined "SOVEREIGN_SHIM_H" st = false ->
   existsb (is_function n) (defs (translation_unit hs st)) = true).
Proof.
  intros Hn Hfb Hfs. revert st.
  induction hs as [|h hs IH]; intros st.
  { split; intros Hin; by apply elem_of_nil in Hin. }
  cbn [translation_unit fold_left].
  destruct (IH (include h st)) as [IHb IHs].
  split; intros Hin Hg; apply elem_of_cons in Hin as [<-|Hin].
  - apply existsb_defs_translation_unit. by apply include_bypass_macro.
  - destruct h.
    + destruct (defined "REECH_BYPASS_H" (include BypassFix_h st)) eqn:Hd;
        [|by apply IHb].
      apply existsb_defs_translation_unit. by apply include_bypass_macro.
    + apply IHb; [done|]. by apply preprocess_undefined.
  - apply existsb_defs_translation_unit. by apply include_shim_function.
  - destruct h.
    + apply IHs; [done|]. by apply preprocess_undefined.
    + destruct (defined "SOVEREIGN_SHIM_H" (include SovereignShim_h st))
        eqn:Hd; [|by apply IHs].
      apply existsb_defs_translation_unit. by apply include_shim_function.
Qed.

Lemma translation_unit_one_header h hs st :
  Forall (fun h' => h' = h) hs ->
  translation_unit (h :: hs) st = include h st.
Proof.
  cbn [translation_unit fold_left]. revert st.
  induction hs as [|h' hs IH]; intros st Hall; [done|].
  apply Forall_cons in Hall as [-> Hall].
  cbn [fold_left]. rewrite include_idempotent. by apply IH.
Qed.

Lemma not_both_one_header hs :
  ~ (BypassFix_h ∈ hs /\ SovereignShim_h ∈ hs) ->
  hs = [] \/ exists h hs', hs = h :: hs' /\ Forall (fun h' => h' = h) hs'.
Proof.
  destruct hs as [|h hs]; [by left|]. intros Hnot. right.
  exists h, hs. split; [done|].
  apply Forall_forall. intros h' Hin.
  destruct h, h'; try done; destruct Hnot; split;
    rewrite elem_of_cons; auto.
Qed.

(** Claim C8.  The names that both headers define are [sem_clockwait]
    and [close_range], and no other; [bypass_fix.h] defines them as
    macros and [sovereign_shim.h] as functions.  Take a translation unit
    that starts with no definition and with neither include guard
    defined, and that includes the headers [hs] outside of any
    conditional, where neither header's text defines the other's guard.
    If both headers are among [hs], each of the two names ends up defined
    both as a macro and as a function, hence at least twice.  So each
    name is defined at most once only if the two headers are not both
    included; and when they are not both included, each name is indeed
    defined at most once. *)
Theorem headers_mutually_exclusive (hs : list header) (st : tu)
    (Hfb : foreign_to "REECH_BYPASS_H" sovereign_shim_h = true)
    (Hfs : foreign_to "SOVEREIGN_SHIM_H" bypass_fix_h = true)
    (Hb : defined "REECH_BYPASS_H" st = false)
    (Hs : defined "SOVEREIGN_SHIM_H" st = false)
    (Hfresh : defs st = []) :
  (forall n, n ∈ defined_names bypass_fix_h /\
             n ∈ defined_names sovereign_shim_h <-> n ∈ shared_names) /\
  Forall (fun n =>
            existsb (is_macro n) (text_defs bypass_fix_h) = true /\
            existsb (is_function n) (text_defs sovereign_shim_h) = true)
         shared_names /\
  (BypassFix_h ∈ hs -> SovereignShim_h ∈ hs ->
   Forall (fun n =>
             existsb (is_macro n) (defs (translation_unit hs st)) = true /\
             existsb (is_function n) (defs (translation_unit hs st)) = true /\
             (2 <= times_defined n (translation_unit hs st))%nat)
          shared_names) /\
  (Forall (fun n => (times_defined n (translation_unit hs st) <= 1)%nat)
          shared_names ->
   ~ (BypassFix_h ∈ hs /\ SovereignShim_h ∈ hs)) /\
  (~ (BypassFix_h ∈ hs /\ SovereignShim_h ∈ hs) ->
   Forall (fun n => (times_defined n (translation_unit hs st) <= 1)%nat)
          shared_names).
Proof.
  assert (Hboth : BypassFix_h ∈ hs -> SovereignShim_h ∈ hs ->
    Forall (fun n =>
      existsb (is_macro n) (defs (translation_unit hs st)) = true /\
      existsb (is_function n) (defs (translation_unit hs st)) = true /\
      (2 <= times_defined n (translation_unit hs st))%nat) shared_names).
  { intros Hinb Hins. apply Forall_forall. intros n Hn.
    destruct (both_included_twice_defined n hs st Hn Hfb Hfs) as [Hm Hf].
    specialize (Hm Hinb Hb). specialize (Hf Hins Hs).
    repeat split; [done..|]. by apply twice_defined. }
  split; [|split; [|split; [exact Hboth|split]]].
  - intros n. vm_compute defined_names. unfold shared_names.
    rewrite !elem_of_cons, !elem_of_nil.
    split; [intros [Hb' Hs']|intros Hn]; intuition (subst; try discriminate; auto).
  - by repeat constructor.
  - intros Hle [Hinb Hins].
    specialize (Hboth Hinb Hins).
    apply Forall_cons in Hle as [Hle _].
    apply Forall_cons in Hboth as [(_ & _ & Hge) _]. lia.
  - intros Hnot. apply Forall_forall. intros n Hn.
    destruct (not_both_one_header hs Hnot) as [->|(h & hs' & -> & Hall)].
    + cbn [translation_unit fold_left]. unfold times_defined.
      rewrite Hfresh. cbn. lia.
    + rewrite translation_unit_one_header by done.
      by apply include_once.
Qed.

(** Claim C10.  In each header every [#define] and every function
    definition stands inside an [#ifndef] group of one of the header's
    include guards ([REECH_BYPASS_H] and [FFI_BYPASS], or
    [SOVEREIGN_SHIM_H]).  So, from any state of the translation unit,
    including a header [k + 1] times leaves exactly the macro table, the
    definitions and the redefinition conflicts that including it once
    leaves. *)
Theorem include_guards_make_inclusion_idempotent
    (h : header) (st : tu) (k : nat) :
  all_guarded (guards h) [] (header_lines h) = true /\
  translation_unit (replicate (S k) h) st = include h st /\
  Nat.iter (S k) (include h) st = include h st /\
  conflicts (translation_unit (replicate (S k) h) st)
    = conflicts (include h st).
Proof.
  assert (Htu : translation_unit (replicate (S k) h) st = include h st).
  { cbn [replicate]. apply translation_unit_one_header.
    apply Forall_forall. by intros h' [-> _]%elem_of_replicate. }
  split; [by destruct h|]. split; [exact Htu|]. split; [|by rewrite Htu].
  clear Htu. induction k as [|k IH]; [done|].
  change (include h (Nat.iter (S k) (include h) st) = include h st).
  rewrite IH. apply include_idempotent.
Qed.

End Translation.

(** C8 on a translation unit that includes both headers, on system
    headers that define [SYS_close_range] only: [close_range] ends up
    defined twice. *)
Lemma headers_mutually_exclusive_witness :
  let H := demo_headers (Some 436) in
  let hs := [BypassFix_h; SovereignShim_h] in
  @foreign_to H "REECH_BYPASS_H" sovereign_shim_h = true /\
  @foreign_to H "SOVEREIGN_SHIM_H" bypass_fix_h = true /\
  defined "REECH_BYPASS_H" tu_init = false /\
  defined "SOVEREIGN_SHIM_H" tu_init = false /\
  defs tu_init = [] /\
  (2 <= times_defined "close_range" (@translation_unit H hs tu_init))%nat.
Proof.
  cbv zeta.
  assert (Hfb : @foreign_to (demo_headers (Some 436)) "REECH_BYPASS_H"
                  sovereign_shim_h = true) by (vm_compute; reflexivity).
  assert (Hfs : @foreign_to (demo_headers (Some 436)) "SOVEREIGN_SHIM_H"
                  bypass_fix_h = true) by (vm_compute; reflexivity).
  assert (Hb : defined "REECH_BYPASS_H" tu_init = false)
    by (vm_compute; reflexivity).
  assert (Hs : defined "SOVEREIGN_SHIM_H" tu_init = false)
    by (vm_compute; reflexivity).
  assert (Hfresh : defs tu_init = []) by reflexivity.
  repeat (split; [assumption|]).
  destruct (@headers_mutually_exclusive (demo_headers (Some 436))
              [BypassFix_h; SovereignShim_h] tu_init Hfb Hfs Hb Hs Hfresh)
    as (_ & _ & Hboth & _).
  assert (Hinb : BypassFix_h ∈ [BypassFix_h; SovereignShim_h])
    by (rewrite !elem_of_cons; auto).
  assert (Hins : SovereignShim_h ∈ [BypassFix_h; SovereignShim_h])
    by (rewrite !elem_of_cons; auto).
  specialize (Hboth Hinb Hins).
  apply Forall_cons in Hboth as [(_ & _ & Hge) _]. exact Hge.
Defined.

(** ** Both layers *)

Section ShimClaims.
Context `{Platform} `{SystemHeaders}.

Lemma extern_ignores_calls {A} (f : Z -> OS -> A * Z * OS) (s : state)
    (l : list string) :
  run (extern f) (mkState (errno s) (os s) l)
  = ((run (extern f) s).1,
     mkState (errno (run (extern f) s).2) (os (run (extern f) s).2) l).
Proof.
  unfold run, extern. cbn [errno os calls].
  by destruct (f (errno s) (os s)) as [[r e] o].
Qed.

(** Claim C5.  Take a translation unit in which the body of
    [sovereign_shim.h] is processed, and let [before] be its state at
    line 13, after the system headers.  After the header,
    [SYS_close_range] stands for the platform's replacement list when
    [before] defines it, and for the literal 436 when it does not; the
    header's own [#define] is taken exactly when [before] does not define
    the name; and in the body of [close_range] the identifier is replaced
    by just that list.  At run time the number that [close_range] hands
    to [syscall] is the platform's when there is one and 436
    otherwise. *)
Theorem SYS_close_range_fallback_436
    (st : tu) (first last flags : Z) (s : state)
    (Hg : defined "SOVEREIGN_SHIM_H" st = false) :
  let before := (preprocess (take 8 sovereign_shim_h) (st, [])).1 in
  let after := include SovereignShim_h st in
  let fallback := ObjectLike [TInt 436] in
  macros after !! "SYS_close_range"
    = Some (default fallback (macros before !! "SYS_close_range")) /\
  times_defined "SYS_close_range" after
    = (times_defined "SYS_close_range" st
       + if defined "SYS_close_range" before then 0 else 1)%nat /\
  head (defs after)
    = Some (DFunction "close_range"
              (expand_object (macros after) close_range_body)) /\
  expand_object (macros after) [TId "SYS_close_range"]
    = match macros before !! "SYS_close_range" with
      | Some (ObjectLike b) => b
      | Some (FunctionLike _ _) => [TId "SYS_close_range"]
      | None => [TInt 436]
      end /\
  SovereignShim.SYS_close_range = default 436 platform_SYS_close_range /\
  run (SovereignShim.close_range first last flags) s
    = (let (r, s') :=
         run (syscall (default 436 platform_SYS_close_range)
                [first; last; flags]) s in
       (int_of_long r, s')) /\
  (macros before !! "SYS_close_range"
     = (fun n => ObjectLike [TInt n]) <$> platform_SYS_close_range ->
   macros after !! "SYS_close_range"
     = Some (ObjectLike [TInt SovereignShim.SYS_close_range])).
Proof.
  cbv zeta.
  assert (Hafter :
    macros (include SovereignShim_h st) !! "SYS_close_range"
    = Some (default (ObjectLike [TInt 436])
              (macros (preprocess (take 8 sovereign_shim_h) (st, [])).1
                 !! "SYS_close_range"))).
  { unfold include, header_lines, sovereign_shim_h. cbn [take]. pp_run.
    rewrite Hg. pp_run.
    match goal with
    | |- context [negb (defined "SYS_close_range" ?S)] =>
        destruct (defined "SYS_close_range" S) eqn:Hd; pp_run
    end.
    - apply bool_decide_eq_true in Hd. destruct Hd as [m Hm].
      cbn [define_function macros] in *. by rewrite Hm.
    - apply bool_decide_eq_false in Hd. apply eq_None_not_Some in Hd.
      cbn [define_function define macros] in *.
      rewrite lookup_insert_eq. by rewrite Hd. }
  split; [exact Hafter|]. split; [|split; [|split; [|split; [|split]]]].
  - unfold include, header_lines, sovereign_shim_h. cbn [take]. pp_run.
    rewrite Hg. pp_run. unfold times_defined.
    pp_cases "SYS_close_range";
      cbn [defs define sys_include define_function];
      rewrite !filter_cons; cbn [definition_name];
      repeat case_decide; try done; cbn [length]; lia.
  - unfold include, header_lines, sovereign_shim_h. pp_run.
    rewrite Hg. pp_run. by pp_cases "SYS_close_range".
  - unfold expand_object. cbn [flat_map]. rewrite Hafter.
    destruct (macros (preprocess _ _).1 !! "SYS_close_range")
      as [[b|ps b]|]; cbn [default]; by rewrite ?app_nil_r.
  - unfold SovereignShim.SYS_close_range.
    by destruct platform_SYS_close_range.
  - unfold SovereignShim.close_range, SovereignShim.SYS_close_range.
    rewrite run_bind.
    destruct platform_SYS_close_range; cbn [default];
      by destruct (run _ s).
  - intros Hlink. rewrite Hafter, Hlink.
    unfold SovereignShim.SYS_close_range.
    by destruct platform_SYS_close_range.
Qed.

End ShimClaims.

(** C5 on system headers whose [<sys/syscall.h>] defines
    [SYS_close_range] as 441: after the header the name still stands for
    441. *)
Lemma SYS_close_range_fallback_436_witness :
  let P := demo_platform (Some 441) L2R2 O012 in
  let H := demo_headers (Some 441) in
  defined "SOVEREIGN_SHIM_H" tu_init = false /\
  macros (@include H SovereignShim_h tu_init) !! "SYS_close_range"
    = Some (ObjectLike [TInt 441]).
Proof.
  cbv zeta.
  assert (Hg : defined "SOVEREIGN_SHIM_H" tu_init = false)
    by (vm_compute; reflexivity).
  split; [exact Hg|].
  destruct (@SYS_close_range_fallback_436
              (demo_platform (Some 441) L2R2 O012)
              (demo_headers (Some 441)) tu_init 3 10 0
              (@mkState (demo_platform (Some 441) L2R2 O012) 0
                 (mkDemo [3; 5] 1) []) Hg) as (_ & _ & _ & _ & _ & _ & Hlink).
  apply Hlink. vm_compute. reflexivity.
Defined.

Section EvaluationClaims.
Context `{Platform}.

Lemma sem_timedwait_calls (sem t : ptr) (s : state) :
  calls (run (sem_timedwait sem t) s).2 = calls s.
Proof. unfold sem_timedwait. by rewrite extern_calls. Qed.

(** Claim C9.  In [bypass_fix.h] no parameter of an always-fail macro
    occurs in its replacement list, and of the parameters of
    [sem_clockwait] the list uses [sem] and [timeout] once each and
    [clock] not at all.  So a call of an always-fail macro runs none of
    its argument expressions, whatever they are, and
    [sem_clockwait(s(), tick(), t())] runs [s] and [t] once and never
    [tick].  A call of a function of [sovereign_shim.h] runs each of its
    three argument expressions exactly once, in whatever order the
    compiler takes them, and the function gets their values. *)
Theorem macro_arguments_unevaluated_function_arguments_once
    {A B C D E F}
    (a : M A) (b : M B) (c : M C) (d : M D) (e : M E) (f : M F)
    (f_name g_name h_name : string) (x y z clock : Z) (sem t : ptr)
    (s : state) :
  Forall (fun l =>
            match l with
            | Define n (FunctionLike ps body) =>
                Forall (fun p =>
                          uses p body
                          = if bool_decide (n = "sem_clockwait")
                            then (if bool_decide (p = "clock")
                                  then 0%nat else 1%nat)
                            else 0%nat) ps
            | _ => True
            end) bypass_fix_h /\
  Forall (fun m : M Z => run m s = failed_ENOSYS s)
    [ BypassFix.close_range a b c;
      BypassFix.copy_file_range a b c d e f;
      BypassFix.preadv2 a b c d e;
      BypassFix.pwritev2 a b c d e;
      BypassFix.getloadavg a b;
      BypassFix.fexecve a b c ] /\
  calls (run (BypassFix.close_range (user_call f_name x)
                (user_call g_name y) (user_call h_name z)) s).2
    = calls s /\
  calls (run (BypassFix.sem_clockwait (user_call f_name sem)
                (user_call g_name clock) (user_call h_name t)) s).2
    ≡ₚ [f_name; h_name] ++ calls s /\
  calls (run (BypassFix.sem_clockwait (ret sem)
                (user_call g_name clock) (ret t)) s).2
    = calls s /\
  calls (run (call3 SovereignShim.close_range (user_call f_name x)
                (user_call g_name y) (user_call h_name z)) s).2
    ≡ₚ [f_name; g_name; h_name] ++ calls s /\
  (run (call3 SovereignShim.close_range (user_call f_name x)
          (user_call g_name y) (user_call h_name z)) s).1
    = (run (SovereignShim.close_range x y z) s).1 /\
  calls (run (call3 SovereignShim.sem_clockwait (user_call f_name sem)
                (user_call g_name clock) (user_call h_name t)) s).2
    ≡ₚ [f_name; g_name; h_name] ++ calls s /\
  calls (run (call3 SovereignShim.sem_clockwait (ret sem)
                (user_call g_name clock) (ret t)) s).2
    = g_name :: calls s.
Proof.
  split; [by repeat constructor|].
  split; [by repeat constructor|].
  split; [reflexivity|].
  assert (Hperm2 : forall l : list string,
            h_name :: f_name :: l ≡ₚ f_name :: h_name :: l)
    by (intros; apply Permutation_swap).
  split.
  { unfold BypassFix.sem_clockwait, call2.
    destruct arg_order2; rewrite !run_bind, !run_user_call; cbn [fst snd];
      rewrite sem_timedwait_calls; cbn [app calls]; auto. }
  split.
  { unfold BypassFix.sem_clockwait. rewrite call2_values.
    by rewrite sem_timedwait_calls. }
  assert (Hclose : forall s',
    calls (run (SovereignShim.close_range x y z) s').2 = calls s').
  { intros s'. unfold SovereignShim.close_range, syscall.
    rewrite run_bind, run_ret. cbn [snd]. by rewrite extern_calls. }
  split.
  { unfold call3.
    destruct arg_order3; rewrite !run_bind, !run_user_call; cbn [fst snd];
      rewrite Hclose; cbn [app calls]; solve_Permutation. }
  split.
  { unfold call3, SovereignShim.close_range, syscall.
    destruct arg_order3; rewrite !run_bind, !run_user_call; cbn [fst snd];
      rewrite !run_ret; cbn [fst snd errno os];
      by rewrite extern_ignores_calls. }
  split.
  { unfold call3, SovereignShim.sem_clockwait.
    destruct arg_order3; rewrite !run_bind, !run_user_call; cbn [fst snd];
      rewrite sem_timedwait_calls; cbn [app calls]; solve_Permutation. }
  unfold call3, SovereignShim.sem_clockwait.
  destruct arg_order3; rewrite !run_bind, !run_user_call, !run_ret;
    cbn [fst snd]; rewrite ?run_bind, ?run_user_call, ?run_ret; cbn [fst snd];
    by rewrite sem_timedwait_calls.
Qed.

End EvaluationClaims.

(** * Further properties *)

(** ** Translation time *)

Section TranslationExtras.
Context `{SystemHeaders}.

Lemma lookup_sys_include h n st :
  n ∉ (sys_macros h).*1 ->
  macros (sys_include h st) !! n = macros st !! n.
Proof.
  unfold sys_include. cbn [macros].
  induction (sys_macros h) as [|[k m] l IH];
    cbn [foldr fmap list_fmap fst snd]; [done|].
  intros [Hk Hn]%not_elem_of_cons.
  rewrite lookup_insert_ne by done. by apply IH.
Qed.

Lemma preprocess_lookup ls n c :
  foreign_to n ls = true ->
  macros (preprocess ls c).1 !! n = macros c.1 !! n.
Proof.
  revert c. induction ls as [|l ls IH]; intros [st stk]; [done|].
  cbn [foreign_to forallb]. intros [Hl Hls]%andb_true_iff.
  cbn [preprocess fold_left].
  change (macros (preprocess ls (step l (st, stk))).1 !! n = macros st !! n).
  rewrite IH by exact Hls.
  destruct l; cbn [step fst] in *; try done;
    destruct (active stk); cbn [fst]; try done.
  - apply negb_true_iff, bool_decide_eq_false in Hl.
    unfold define. cbn [macros]. by rewrite lookup_insert_ne.
  - apply negb_true_iff, bool_decide_eq_false in Hl.
    by apply lookup_sys_include.
Qed.

(** Property X1.  Including the headers leaves every macro that their
    text is foreign to exactly as it was. *)
Theorem translation_unit_keeps_foreign_macros
    (hs : list header) (n : string) (st : tu)
    (Hforeign : Forall (fun h => foreign_to n (header_lines h) = true) hs) :
  macros (translation_unit hs st) !! n = macros st !! n.
Proof.
  revert st. induction Hforeign as [|h hs Hh _ IH]; intros st; [done|].
  cbn [translation_unit fold_left].
  change (macros (translation_unit hs (include h st)) !! n = macros st !! n).
  rewrite IH. unfold include. by rewrite preprocess_lookup.
Qed.

(** Property X2.  Each header closes every conditional group it opens:
    it hands the includer's conditional stack back as it found it, and
    inside a skipped group it changes nothing at all. *)
Theorem header_conditionals_balanced
    (h : header) (st : tu) (stack : list bool) :
  (preprocess (header_lines h) (st, stack)).2 = stack /\
  preprocess (header_lines h) (st, false :: stack) = (st, false :: stack).
Proof.
  split.
  - destruct stack as [|[|] stack], h;
      unfold header_lines, bypass_fix_h, sovereign_shim_h; pp_run;
      try done.
    + by pp_cases "REECH_BYPASS_H"; pp_cases "FFI_BYPASS".
    + pp_cases "SOVEREIGN_SHIM_H"; [done|]. by pp_cases "SYS_close_range".
    + by pp_cases "REECH_BYPASS_H"; pp_cases "FFI_BYPASS".
    + pp_cases "SOVEREIGN_SHIM_H"; [done|]. by pp_cases "SYS_close_range".
  - by destruct h.
Qed.

(** Property X3.  The two groups of [bypass_fix.h] are independent.
    The first
    group makes all its eleven definitions when [REECH_BYPASS_H] is
    undefined and nothing otherwise; either way [<sys/mman.h>] is then
    included, and [FFI_BYPASS] defined, exactly when [FFI_BYPASS] is
    undefined after the first group. *)
Theorem bypass_fix_groups_independent (st : tu) :
  let mid := (preprocess (take 16 bypass_fix_h) (st, [])).1 in
  include BypassFix_h st
    = (if defined "FFI_BYPASS" mid then mid
       else sys_include "sys/mman.h"
              (define "FFI_BYPASS" (ObjectLike []) mid)) /\
  (if defined "REECH_BYPASS_H" st then mid = st
   else defs mid = rev (text_defs (take 16 bypass_fix_h)) ++ defs st).
Proof.
  cbv zeta. unfold include, header_lines, bypass_fix_h. cbn [take]. pp_run.
  destruct (defined "REECH_BYPASS_H" st) eqn:Hg; pp_run.
  - split; [|done]. by destruct (defined "FFI_BYPASS" st).
  - split; [|done].
    match goal with
    | |- context [negb (defined "FFI_BYPASS" ?S)] =>
        by destruct (defined "FFI_BYPASS" S)
    end.
Qed.

(** *** The stub macros stay in force *)

Lemma lookup_define_eq n m st : macros (define n m st) !! n = Some m.
Proof. unfold define. cbn [macros]. apply lookup_insert_eq. Qed.

Lemma lookup_define_ne n k m st :
  k <> n -> macros (define k m st) !! n = macros st !! n.
Proof. intros Hk. unfold define. cbn [macros]. by apply lookup_insert_ne. Qed.

Lemma lookup_define_function n k b st :
  macros (define_function k b st) !! n = macros st !! n.
Proof. reflexivity. Qed.

Ltac pp_lookup :=
  repeat first
    [ rewrite lookup_define_eq
    | rewrite lookup_define_ne by done
    | rewrite lookup_define_function
    | rewrite lookup_sys_include by done ].

Ltac in_text := unfold bypass_fix_h, sovereign_shim_h; cbn [In]; auto 30.

Ltac each_name Hn :=
  unfold stub_names, shared_names in Hn;
  rewrite ?elem_of_cons, ?elem_of_nil in Hn;
  repeat (destruct Hn as [->|Hn]); try contradiction.

Lemma include_bypass_stub_in_force n st :
  n ∈ stub_names ->
  n ∉ (sys_macros "sys/mman.h").*1 ->
  defined "REECH_BYPASS_H" st = false ->
  stub_in_force n (include BypassFix_h st).
Proof.
  intros Hn Hmman Hg. split.
  { pose proof (include_defines_guards BypassFix_h st) as Hgs.
    by apply Forall_cons in Hgs as [? _]. }
  unfold include, header_lines, bypass_fix_h. pp_run. rewrite Hg. pp_run.
  each_name Hn; pp_cases "FFI_BYPASS"; by pp_lookup.
Qed.

Lemma include_keeps_stub_in_force n h st :
  n ∈ stub_names ->
  n ∉ (sys_macros "sys/mman.h").*1 ->
  foreign_to n sovereign_shim_h = true ->
  stub_in_force n st -> stub_in_force n (include h st).
Proof.
  intros Hn Hmman Hshim [Hg Hm]. split; [by apply include_defined|].
  rewrite <- Hm. destruct h.
  - unfold include, header_lines, bypass_fix_h. pp_run. rewrite Hg. pp_run.
    pp_cases "FFI_BYPASS"; [done|].
    rewrite lookup_sys_include by done.
    apply lookup_define_ne. clear -Hn. each_name Hn; done.
  - unfold include. by apply preprocess_lookup.
Qed.

Lemma translation_unit_keeps_stub_in_force n hs st :
  n ∈ stub_names ->
  n ∉ (sys_macros "sys/mman.h").*1 ->
  foreign_to n sovereign_shim_h = true ->
  stub_in_force n st -> stub_in_force n (translation_unit hs st).
Proof.
  intros Hn Hmman Hshim. revert st.
  induction hs as [|h hs IH]; intros st Hst; [done|].
  cbn [translation_unit fold_left]. apply IH.
  by apply include_keeps_stub_in_force.
Qed.

Lemma translation_unit_stub_in_force hs n st :
  n ∈ stub_names ->
  BypassFix_h ∈ hs ->
  defined "REECH_BYPASS_H" st = false ->
  foreign_to "REECH_BYPASS_H" sovereign_shim_h = true ->
  n ∉ (sys_macros "sys/mman.h").*1 ->
  foreign_to n sovereign_shim_h = true ->
  stub_in_force n (translation_unit hs st).
Proof.
  intros Hn Hin Hg Hfg Hmman Hshim. revert st Hg.
  induction hs as [|h hs IH]; intros st Hg.
  { by apply elem_of_nil in Hin. }
  cbn [translation_unit fold_left].
  change (stub_in_force n (translation_unit hs (include h st))).
  destruct h.
  - apply translation_unit_keeps_stub_in_force; try done.
    by apply include_bypass_stub_in_force.
  - apply elem_of_cons in Hin as [Hin|Hin]; [done|].
    apply IH; [done|]. by apply preprocess_undefined.
Qed.

(** Property X4.  Once the body of [bypass_fix.h] has been processed,
    each of its ten names stands for the header's macro at the end of the
    translation unit, whatever is included before and after,
    [sovereign_shim.h] too. *)
Theorem stub_macros_stay_in_force (hs : list header) (n : string) (st : tu)
    (Hn : n ∈ stub_names)
    (Hin : BypassFix_h ∈ hs)
    (Hg : defined "REECH_BYPASS_H" st = false)
    (Hfg : foreign_to "REECH_BYPASS_H" sovereign_shim_h = true)
    (Hmman : n ∉ (sys_macros "sys/mman.h").*1)
    (Hshim : foreign_to n sovereign_shim_h = true) :
  is_Some (text_macro n bypass_fix_h) /\
  macros (translation_unit hs st) !! n = text_macro n bypass_fix_h.
Proof.
  split. { clear -Hn. each_name Hn; vm_compute; eauto. }
  by destruct (translation_unit_stub_in_force hs n st).
Qed.

(** *** Redefinition conflicts *)

Lemma step_conflicts l x st stk :
  x ∈ conflicts st -> x ∈ conflicts (step l (st, stk)).1.
Proof.
  intros Hx. destruct l; cbn [step fst]; try done;
    destruct (active stk); cbn [fst]; try done.
  - unfold define. cbn [conflicts].
    destruct (macros st !! name) as [m'|]; [|done].
    case_decide; [done|]. by apply list_elem_of_further.
  - unfold define_function. cbn [conflicts].
    destruct (existsb _ _); [by apply list_elem_of_further|].
    destruct (macros st !! name) as [[?|? ?]|]; try done.
    by apply list_elem_of_further.
Qed.

Lemma preprocess_conflicts ls x c :
  x ∈ conflicts c.1 -> x ∈ conflicts (preprocess ls c).1.
Proof.
  revert c. induction ls as [|l ls IH]; intros [st stk] Hx; [done|].
  cbn [preprocess fold_left]. apply IH. by apply step_conflicts.
Qed.

Lemma translation_unit_conflicts hs x st :
  x ∈ conflicts st -> x ∈ conflicts (translation_unit hs st).
Proof.
  revert st. induction hs as [|h hs IH]; intros st Hx; [done|].
  cbn [translation_unit fold_left]. apply IH.
  unfold include. by apply preprocess_conflicts.
Qed.

Lemma define_function_clash n ps bd body st :
  macros st !! n = Some (FunctionLike ps bd) ->
  n ∈ conflicts (define_function n body st).
Proof.
  intros Hm. unfold define_function. cbn [conflicts].
  destruct (existsb _ _); [apply list_elem_of_here|].
  rewrite Hm. apply list_elem_of_here.
Qed.

Lemma foreign_to_sys n ls h :
  foreign_to n ls = true -> IncludeSys h ∈ ls -> n ∉ (sys_macros h).*1.
Proof.
  unfold foreign_to. rewrite forallb_forall. intros Hall Hin.
  apply list_elem_of_In in Hin. specialize (Hall _ Hin). cbn in Hall.
  by apply negb_true_iff, bool_decide_eq_false in Hall.
Qed.

Lemma include_shim_clash n st :
  n ∈ shared_names ->
  foreign_to n sovereign_shim_h = true ->
  defined "SOVEREIGN_SHIM_H" st = false ->
  stub_in_force n st ->
  n ∈ conflicts (include SovereignShim_h st).
Proof.
  intros Hn Hf Hg [_ Hm].
  assert (Hsys : forall h, In (IncludeSys h) sovereign_shim_h ->
                           n ∉ (sys_macros h).*1).
  { intros h Hh. apply (foreign_to_sys n sovereign_shim_h); [done|].
    by apply list_elem_of_In. }
  assert (H1 := Hsys "time.h" ltac:(in_text)).
  assert (H2 := Hsys "semaphore.h" ltac:(in_text)).
  assert (H3 := Hsys "errno.h" ltac:(in_text)).
  assert (H4 := Hsys "unistd.h" ltac:(in_text)).
  assert (H5 := Hsys "sys/syscall.h" ltac:(in_text)).
  clear Hsys.
  unfold include, header_lines, sovereign_shim_h. pp_run. rewrite Hg. pp_run.
  each_name Hn.
  - pp_cases "SYS_close_range";
      (eapply define_function_clash; pp_lookup; rewrite Hm;
       vm_compute; reflexivity).
  - pp_cases "SYS_close_range";
      change (?x ∈ conflicts (define_function ?k ?b ?S))
        with (x ∈ conflicts (step (Function k [] b) (S, [])).1);
      apply step_conflicts;
      repeat match goal with
      | |- ?x ∈ conflicts (define ?k ?m ?S) =>
          change (x ∈ conflicts (step (Define k m) (S, [])).1);
          apply step_conflicts
      end;
      (eapply define_function_clash; pp_lookup; rewrite Hm;
       vm_compute; reflexivity).
Qed.

(** Property X5.  Whenever the body of [sovereign_shim.h] is processed
    after the body of [bypass_fix.h], both [close_range] and [sem_clockwait] are
    reported as redefinition conflicts: the header's functions meet the
    function-like macros of the same names. *)
Theorem shim_after_stubs_conflicts
    (hs1 hs2 : list header) (st : tu)
    (Hin : BypassFix_h ∈ hs1)
    (Hnot : SovereignShim_h ∉ hs1)
    (Hb : defined "REECH_BYPASS_H" st = false)
    (Hs : defined "SOVEREIGN_SHIM_H" st = false)
    (Hfb : foreign_to "REECH_BYPASS_H" sovereign_shim_h = true)
    (Hfs : foreign_to "SOVEREIGN_SHIM_H" bypass_fix_h = true)
    (Hmman : Forall (fun n => n ∉ (sys_macros "sys/mman.h").*1)
               shared_names)
    (Hshim : Forall (fun n => foreign_to n sovereign_shim_h = true)
               shared_names) :
  Forall (fun n =>
            n ∈ conflicts
                  (translation_unit (hs1 ++ SovereignShim_h :: hs2) st))
         shared_names.
Proof.
  apply Forall_forall. intros n Hn.
  rewrite Forall_forall in Hmman, Hshim.
  unfold translation_unit. rewrite fold_left_app. cbn [fold_left].
  apply translation_unit_conflicts.
  assert (Hstub : n ∈ stub_names) by (clear -Hn; each_name Hn;
    unfold stub_names; rewrite !elem_of_cons; auto 20).
  apply include_shim_clash; auto.
  - clear Hin Hb. revert st Hs.
    induction hs1 as [|h hs1 IH]; intros st Hs; [done|].
    apply not_elem_of_cons in Hnot as [Hh Hnot]. destruct h; [|done].
    cbn [fold_left]. apply IH; [done|].
    unfold include. by apply preprocess_undefined.
  - apply translation_unit_stub_in_force; auto.
Qed.



(** *** No conflict when the functions come first *)

Lemma conflicts_define_fresh n m st :
  defined n st = false -> conflicts (define n m st) = conflicts st.
Proof.
  intros Hn%bool_decide_eq_false%eq_None_not_Some.
  unfold define. cbn [conflicts]. by rewrite Hn.
Qed.

Lemma conflicts_define_function_fresh n b st :
  existsb (is_function n) (defs st) = false ->
  defined n st = false ->
  conflicts (define_function n b st) = conflicts st.
Proof.
  intros Hf Hn%bool_decide_eq_false%eq_None_not_Some.
  unfold define_function. cbn [conflicts]. by rewrite Hf, Hn.
Qed.

Lemma conflicts_sys_include h st :
  conflicts (sys_include h st) = conflicts st.
Proof. reflexivity. Qed.

Lemma undefined_define_function n k b st :
  defined n st = false -> defined n (define_function k b st) = false.
Proof. done. Qed.

Lemma sys_silent_sys n ls h :
  sys_silent n ls = true -> In (IncludeSys h) ls -> n ∉ (sys_macros h).*1.
Proof.
  unfold sys_silent. rewrite forallb_forall. intros Hall Hin.
  specialize (Hall _ Hin). cbn in Hall.
  by apply negb_true_iff, bool_decide_eq_false in Hall.
Qed.

Ltac pp_undefined :=
  repeat first
    [ match goal with
      | H : defined ?n ?S = false |- defined ?n ?S = false => exact H
      end
    | match goal with
      | |- defined _ (define _ _ _) = false =>
          apply undefined_define; [done|]
      | |- defined _ (define_function _ _ _) = false =>
          apply undefined_define_function
      | |- defined ?n (sys_include ?h _) = false =>
          apply undefined_sys_include;
          [ first
              [ eapply (sys_silent_sys n bypass_fix_h h);
                [eassumption|in_text]
              | eapply (sys_silent_sys n sovereign_shim_h h);
                [eassumption|in_text] ]
          | ]
      end ].

Ltac pp_no_function Hfresh :=
  cbn [defs define sys_include define_function]; rewrite Hfresh;
  cbn [existsb is_function is_macro]; decide_names; reflexivity.

Ltac pp_conflicts Hfresh :=
  repeat first
    [ rewrite conflicts_sys_include
    | rewrite conflicts_define_fresh by pp_undefined
    | rewrite conflicts_define_function_fresh
        by first [pp_no_function Hfresh | pp_undefined] ].

Ltac split_names H :=
  unfold defined_names, text_defs, bypass_fix_h, sovereign_shim_h in H;
  cbn [flat_map map app definition_name] in H;
  repeat match type of H with
  | Forall _ (_ :: _) =>
      let H1 := fresh "Hname" in
      apply Forall_cons in H as [H1 H]
  end.

Lemma include_shim_no_conflict st :
  defs st = [] ->
  Forall (fun n => defined n st = false) shared_names ->
  Forall (fun n => sys_silent n sovereign_shim_h = true)
    ("SOVEREIGN_SHIM_H" :: shared_names) ->
  conflicts (include SovereignShim_h st) = conflicts st.
Proof.
  intros Hfresh Hprist Hsys.
  unfold shared_names in *.
  apply Forall_cons in Hprist as [Hp1 Hprist].
  apply Forall_cons in Hprist as [Hp2 _].
  apply Forall_cons in Hsys as [Hs0 Hsys].
  apply Forall_cons in Hsys as [Hs1 Hsys].
  apply Forall_cons in Hsys as [Hs2 _].
  unfold include, header_lines, sovereign_shim_h. pp_run.
  pp_cases "SOVEREIGN_SHIM_H"; [done|].
  pp_cases "SYS_close_range"; by pp_conflicts Hfresh.
Qed.



Lemma include_bypass_no_conflict st :
  Forall (fun n => defined n st = false) (defined_names bypass_fix_h) ->
  Forall (fun n => sys_silent n bypass_fix_h = true)
    (defined_names bypass_fix_h) ->
  conflicts (include BypassFix_h st) = conflicts st.
Proof.
  intros Hprist Hsys. split_names Hprist. split_names Hsys.
  unfold include, header_lines, bypass_fix_h. pp_run.
  pp_cases "REECH_BYPASS_H"; pp_cases "FFI_BYPASS"; try done;
    by pp_conflicts Hprist.
Qed.

Lemma foreign_to_silent n ls :
  foreign_to n ls = true -> sys_silent n ls = true.
Proof.
  unfold foreign_to, sys_silent. rewrite !forallb_forall.
  intros Hall l Hl. specialize (Hall l Hl). by destruct l.
Qed.

Lemma translation_unit_app hs1 hs2 st :
  translation_unit (hs1 ++ hs2) st
  = translation_unit hs2 (translation_unit hs1 st).
Proof. unfold translation_unit. apply fold_left_app. Qed.

Lemma translation_unit_replicate k h st :
  translation_unit (replicate k h) st
  = match k with O => st | S _ => include h st end.
Proof.
  destruct k as [|k]; [done|]. cbn [replicate].
  apply translation_unit_one_header.
  apply Forall_forall. by intros h' [-> _]%elem_of_replicate.
Qed.

(** Property X6.  A translation unit in which no inclusion of
    [sovereign_shim.h] follows one of [bypass_fix.h] has no redefinition conflict of its
    own: the macros come after the functions and only shadow them. *)
Theorem functions_before_stubs_no_conflict
    (a b : nat) (st : tu)
    (Hfresh : defs st = [])
    (Hprist : Forall (fun n => defined n st = false)
                (defined_names bypass_fix_h))
    (Hsys : Forall (fun n => sys_silent n bypass_fix_h = true /\
                             foreign_to n sovereign_shim_h = true)
              (defined_names bypass_fix_h))
    (Hguard : sys_silent "SOVEREIGN_SHIM_H" sovereign_shim_h = true) :
  conflicts (translation_unit
               (replicate a SovereignShim_h ++ replicate b BypassFix_h) st)
  = conflicts st.
Proof.
  rewrite translation_unit_app, !translation_unit_replicate.
  assert (Hsb : Forall (fun n => sys_silent n bypass_fix_h = true)
                  (defined_names bypass_fix_h))
    by (eapply Forall_impl; [exact Hsys|]; by intros n [? ?]).
  assert (Hfs : Forall (fun n => foreign_to n sovereign_shim_h = true)
                  (defined_names bypass_fix_h))
    by (eapply Forall_impl; [exact Hsys|]; by intros n [? ?]).
  assert (Hshim : conflicts (include SovereignShim_h st) = conflicts st).
  { apply include_shim_no_conflict; [done|..].
    - rewrite Forall_forall in Hprist. apply Forall_forall. intros n Hn.
      apply Hprist. clear -Hn. each_name Hn; vm_compute defined_names;
        rewrite !elem_of_cons; auto 20.
    - apply Forall_cons. split; [done|].
      rewrite Forall_forall in Hfs. apply Forall_forall. intros n Hn.
      apply foreign_to_silent, Hfs. clear -Hn.
      each_name Hn; vm_compute defined_names; rewrite !elem_of_cons; auto 20. }
  assert (Hprist' : Forall (fun n => defined n (include SovereignShim_h st)
                                     = false) (defined_names bypass_fix_h)).
  { rewrite Forall_forall in Hprist, Hfs. apply Forall_forall. intros n Hn.
    unfold include. apply preprocess_undefined; auto. }
  destruct a as [|a], b as [|b]; try done.
  - by apply include_bypass_no_conflict.
  - rewrite include_bypass_no_conflict; done.
Qed.

End TranslationExtras.

(** The statements above on the headers of the concrete platform. *)
Lemma translation_unit_keeps_foreign_macros_witness :
  let H := demo_headers (Some 436) in
  let hs := [BypassFix_h; SovereignShim_h] in
  Forall (fun h => @foreign_to H "PATH_MAX" (header_lines h) = true) hs /\
  macros (@translation_unit H hs tu_init) !! "PATH_MAX"
    = macros tu_init !! "PATH_MAX".
Proof.
  cbv zeta.
  assert (Hf : Forall (fun h => @foreign_to (demo_headers (Some 436))
                                  "PATH_MAX" (header_lines h) = true)
                 [BypassFix_h; SovereignShim_h])
    by (repeat constructor; vm_compute; reflexivity).
  split; [exact Hf|].
  exact (@translation_unit_keeps_foreign_macros (demo_headers (Some 436))
           [BypassFix_h; SovereignShim_h] "PATH_MAX" tu_init Hf).
Defined.

Lemma stub_macros_stay_in_force_witness :
  let H := demo_headers (Some 436) in
  let hs := [SovereignShim_h; BypassFix_h; SovereignShim_h] in
  "close_range" ∈ stub_names /\
  BypassFix_h ∈ hs /\
  defined "REECH_BYPASS_H" tu_init = false /\
  @foreign_to H "REECH_BYPASS_H" sovereign_shim_h = true /\
  ("close_range" ∉ (@sys_macros H "sys/mman.h").*1) /\
  @foreign_to H "close_range" sovereign_shim_h = true /\
  macros (@translation_unit H hs tu_init) !! "close_range"
    = text_macro "close_range" bypass_fix_h.
Proof.
  cbv zeta.
  assert (Hn : "close_range" ∈ stub_names)
    by (unfold stub_names; rewrite !elem_of_cons; auto).
  assert (Hin : BypassFix_h ∈ [SovereignShim_h; BypassFix_h; SovereignShim_h])
    by (rewrite !elem_of_cons; auto).
  assert (Hg : defined "REECH_BYPASS_H" tu_init = false)
    by (vm_compute; reflexivity).
  assert (Hfg : @foreign_to (demo_headers (Some 436)) "REECH_BYPASS_H"
                  sovereign_shim_h = true) by (vm_compute; reflexivity).
  assert (Hmman : "close_range"
                  ∉ (@sys_macros (demo_headers (Some 436)) "sys/mman.h").*1)
    by (vm_compute; apply not_elem_of_nil).
  assert (Hshim : @foreign_to (demo_headers (Some 436)) "close_range"
                    sovereign_shim_h = true) by (vm_compute; reflexivity).
  repeat (split; [assumption|]).
  exact (proj2 (@stub_macros_stay_in_force (demo_headers (Some 436))
                  [SovereignShim_h; BypassFix_h; SovereignShim_h]
                  "close_range" tu_init Hn Hin Hg Hfg Hmman Hshim)).
Defined.

Lemma shim_after_stubs_conflicts_witness :
  let H := demo_headers (Some 436) in
  BypassFix_h ∈ [BypassFix_h] /\
  (SovereignShim_h ∉ [BypassFix_h]) /\
  defined "REECH_BYPASS_H" tu_init = false /\
  defined "SOVEREIGN_SHIM_H" tu_init = false /\
  @foreign_to H "REECH_BYPASS_H" sovereign_shim_h = true /\
  @foreign_to H "SOVEREIGN_SHIM_H" bypass_fix_h = true /\
  Forall (fun n => n ∉ (@sys_macros H "sys/mman.h").*1) shared_names /\
  Forall (fun n => @foreign_to H n sovereign_shim_h = true) shared_names /\
  Forall (fun n =>
            n ∈ conflicts
                  (@translation_unit H
                     ([BypassFix_h] ++ SovereignShim_h :: []) tu_init))
         shared_names.
Proof.
  cbv zeta.
  assert (Hin : BypassFix_h ∈ [BypassFix_h]) by (rewrite elem_of_cons; auto).
  assert (Hnot : SovereignShim_h ∉ [BypassFix_h]).
  { intros Hx. apply elem_of_cons in Hx as [Hx|Hx]; [discriminate|].
    by apply elem_of_nil in Hx. }
  assert (Hb : defined "REECH_BYPASS_H" tu_init = false)
    by (vm_compute; reflexivity).
  assert (Hs : defined "SOVEREIGN_SHIM_H" tu_init = false)
    by (vm_compute; reflexivity).
  assert (Hfb : @foreign_to (demo_headers (Some 436)) "REECH_BYPASS_H"
                  sovereign_shim_h = true) by (vm_compute; reflexivity).
  assert (Hfs : @foreign_to (demo_headers (Some 436)) "SOVEREIGN_SHIM_H"
                  bypass_fix_h = true) by (vm_compute; reflexivity).
  assert (Hmman : Forall (fun n => n ∉ (@sys_macros (demo_headers (Some 436))
                                          "sys/mman.h").*1) shared_names)
    by (repeat constructor; vm_compute; apply not_elem_of_nil).
  assert (Hshim : Forall (fun n => @foreign_to (demo_headers (Some 436)) n
                                     sovereign_shim_h = true) shared_names)
    by (repeat constructor; vm_compute; reflexivity).
  repeat (split; [assumption|]).
  exact (@shim_after_stubs_conflicts (demo_headers (Some 436))
           [BypassFix_h] [] tu_init Hin Hnot Hb Hs Hfb Hfs Hmman Hshim).
Defined.

Lemma functions_before_stubs_no_conflict_witness :
  let H := demo_headers (Some 436) in
  defs tu_init = [] /\
  Forall (fun n => defined n tu_init = false) (defined_names bypass_fix_h) /\
  Forall (fun n => @sys_silent H n bypass_fix_h = true /\
                   @foreign_to H n sovereign_shim_h = true)
    (defined_names bypass_fix_h) /\
  @sys_silent H "SOVEREIGN_SHIM_H" sovereign_shim_h = true /\
  conflicts (@translation_unit H
               (replicate 1 SovereignShim_h ++ replicate 2 BypassFix_h)
               tu_init)
  = conflicts tu_init.
Proof.
  cbv zeta.
  assert (Hfresh : defs tu_init = []) by reflexivity.
  assert (Hprist : Forall (fun n => defined n tu_init = false)
                     (defined_names bypass_fix_h))
    by (repeat constructor; vm_compute; reflexivity).
  assert (Hsys : Forall (fun n =>
                   @sys_silent (demo_headers (Some 436)) n bypass_fix_h = true /\
                   @foreign_to (demo_headers (Some 436)) n sovereign_shim_h
                   = true) (defined_names bypass_fix_h))
    by (repeat constructor; vm_compute; reflexivity).
  assert (Hguard : @sys_silent (demo_headers (Some 436)) "SOVEREIGN_SHIM_H"
                     sovereign_shim_h = true) by (vm_compute; reflexivity).
  repeat (split; [assumption|]).
  exact (@functions_before_stubs_no_conflict (demo_headers (Some 436))
           1 2 tu_init Hfresh Hprist Hsys Hguard).
Defined.

(** ** Run time *)

Section RunTimeExtras.
Context `{Platform}.

Lemma int_of_long_congruent (r : Z) : (int_of_long r - r) mod 2 ^ 32 = 0.
Proof.
  unfold int_of_long.
  rewrite (Z.mod_eq (r + 2 ^ 31) (2 ^ 32)) by lia.
  replace (r + 2 ^ 31 - 2 ^ 32 * ((r + 2 ^ 31) `div` 2 ^ 32) - 2 ^ 31 - r)
    with (- ((r + 2 ^ 31) `div` 2 ^ 32) * 2 ^ 32) by lia.
  apply Z.mod_mul. lia.
Qed.

(** Property X7.  Whatever the kernel answers, [close_range] of
    [sovereign_shim.h]
    returns an [int] that is congruent to the kernel's [long] result
    modulo 2^32, equal to it exactly when that result is an [int], and
    it leaves the state as the system call left it. *)
Theorem close_range_narrows_syscall_result
    (first last flags : Z) (s : state) :
  let kernel :=
    run (syscall SovereignShim.SYS_close_range [first; last; flags]) s in
  let result := run (SovereignShim.close_range first last flags) s in
  in_int_range result.1 /\
  (result.1 - kernel.1) mod 2 ^ 32 = 0 /\
  (result.1 = kernel.1 <-> in_int_range kernel.1) /\
  result.2 = kernel.2.
Proof.
  cbv zeta. unfold SovereignShim.close_range.
  rewrite run_bind, run_ret. cbn [fst snd].
  split; [apply int_of_long_range|]. split; [apply int_of_long_congruent|].
  split; [|done]. split.
  - intros <-. apply int_of_long_range.
  - apply int_of_long_id.
Qed.

(** Property X8.  The two headers' [close_range] give the same outcome
    on a call
    exactly when the kernel answers that call like a kernel without the
    facility: a result that narrows to -1, [errno] set to [ENOSYS], and
    the operating system left as it was. *)
Theorem close_range_headers_agree_iff
    (first last flags : Z) (s : state) :
  run (BypassFix.close_range (ret first) (ret last) (ret flags)) s
    = run (call3 SovereignShim.close_range
             (ret first) (ret last) (ret flags)) s
  <->
  exists r,
    libc_syscall SovereignShim.SYS_close_range [first; last; flags]
      (errno s) (os s) = (r, ENOSYS, os s) /\
    int_of_long r = - 1.
Proof.
  rewrite call3_values.
  unfold SovereignShim.close_range, syscall, BypassFix.close_range.
  unfold run, comma, bind, assign_errno, ret, extern.
  destruct (libc_syscall _ _ _ _) as [[r e] o]. cbn [os calls].
  split.
  - intros Heq. injection Heq as Hr He Ho. exists r. by subst.
  - intros (r' & Heq & Hr). injection Heq as -> -> ->. by rewrite Hr.
Qed.

End RunTimeExtras.
